(** * Form-submission pipeline of the Next 14 / Drizzle / Zod starter

    A shallow embedding of the TypeScript modules that make up the form
    pipeline:

    - [src/lib/zod/index.ts]          ([parseFormData]),
    - [src/server/errors/zod_errors.ts] ([ZodFormError]),
    - [src/server/state.ts]           ([FormErrors], [FormState] and its
                                        three constructors),
    - [src/server/actions/admin.ts]   ([adminLogin], the handler that puts
                                        the three together).

    JavaScript objects used as string-keyed records are finite maps
    ([gmap string _]); the order in which an object enumerates its keys is
    abstracted away, equality is equality of contents.  Code that can
    throw lives in a small completion monad. *)

From stdpp Require Import gmap strings list fin_maps pretty.

Open Scope string_scope.

(** ** JavaScript completions: a call either returns or throws *)

Module Js.

Inductive Completion (E A : Type) : Type :=
  | Normal (a : A)
  | Throw (e : E).
Arguments Normal {E A} a.
Arguments Throw {E A} e.

#[global] Instance Completion_ret {E} : MRet (Completion E) :=
  λ A a, Normal a.

#[global] Instance Completion_bind {E} : MBind (Completion E) :=
  λ A B f c, match c with
             | Normal a => f a
             | Throw e => Throw e
             end.

(** [try { body } catch (err) { handler }]: the handler sees whatever
    value the body threw, of whatever kind. *)
Definition try_catch {E A} (body : Completion E A)
    (handler : E → Completion E A) : Completion E A :=
  match body with
  | Normal a => Normal a
  | Throw err => handler err
  end.

(** [o[k] = v] on an object created by the literal [{}].  An ordinary
    assignment goes through the prototype chain first: the key
    ["__proto__"] reaches the accessor of [Object.prototype], whose setter
    ignores a value that is neither an object nor [null], so no own
    property is created for it.  Every other key becomes (or overwrites)
    an own data property. *)
Definition assign {V} (k : string) (v : V) (o : gmap string V) : gmap string V :=
  if decide (k = "__proto__") then o else <[k := v]> o.

(** [Object.fromEntries(iterable)]: one [CreateDataProperty] per entry, in
    iteration order, so a later entry replaces an earlier one with the
    same key (this path does not consult the prototype chain). *)
Definition Object_fromEntries {V} (entries : list (string * V)) : gmap string V :=
  foldl (λ obj e, <[e.1 := e.2]> obj) ∅ entries.

End Js.

(** ** The part of zod the repository touches *)

Module Zod.

(** An element of [ZodIssue.path], of type [string | number]; the numbers
    are array indices, non-negative integers.  ([Index n] stands for a
    JavaScript number only while [n] is at most [MAX_SAFE_INTEGER].) *)
Inductive PathSegment : Type :=
  | Key (s : string)
  | Index (n : N).

(** The two fields of a [ZodIssue] the repository reads. *)
Record ZodIssue : Type := {
  path : list PathSegment;
  message : string;
}.

(** A [ZodError]; [errors] is the getter that returns the issue list. *)
Record ZodError : Type := {
  errors : list ZodIssue;
}.

(** What a [catch] clause of the pipeline can receive, the value
    [undefined] apart: any value can be thrown, so a thrown value is an
    [option Thrown], [None] being [undefined]. *)
Inductive Thrown : Type :=
  | ThrownZodError (e : ZodError)
  | ThrownTypeError (msg : string)
  | ThrownOther (description : string).

(** A value of a [FormData] entry: [FormDataEntryValue = string | File]
    (a file is represented by its name). *)
Inductive FormDataEntryValue : Type :=
  | Text (s : string)
  | File (name : string).

(** [FormData]: the submitted entries in submission order, names not
    necessarily distinct; [entries] is its iterator. *)
Record FormData : Type := {
  entries : list (string * FormDataEntryValue);
}.

(** The object handed to [schema.parse]. *)
Abbreviation Form := (gmap string FormDataEntryValue).

(** [type Schema = ZodObject<any> | ZodEffects<ZodObject<any>>], seen
    through the one method the repository calls.  [parse] returns a value
    or throws one; either may be [undefined] ([None]), since a schema with
    effects runs callbacks of its author. *)
Record Schema (ReturnType : Type) : Type := {
  parse : Form → Js.Completion (option Thrown) (option ReturnType);
}.
Arguments parse {ReturnType} _ _.

(** A method call [schema.parse(form)] on a possibly absent schema:
    reading a property of [undefined] throws a [TypeError]. *)
Definition call_parse {ReturnType} (schema : option (Schema ReturnType))
    (form : Form) : Js.Completion (option Thrown) (option ReturnType) :=
  match schema with
  | Some s => parse s form
  | None =>
      Js.Throw (Some (ThrownTypeError
                        "Cannot read properties of undefined (reading 'parse')"))
  end.

End Zod.

(** ** src/server/state.ts *)

Module State.

Abbreviation FormErrors := (gmap string string).

(** A [FormState] object: a property is [None] when the object does not
    have it.  The payload of a success is spelled [messgae] in the
    source. *)
Record FormState : Type := {
  state : string;
  success : option bool;
  messgae : option string;
  errors : option FormErrors;
}.

Definition SuccessState (msg : string) : FormState :=
  {| state := "success";
     success := Some true;
     messgae := Some msg;
     errors := None |}.

Definition FailState (errors : FormErrors) : FormState :=
  {| state := "fail";
     success := Some false;
     messgae := None;
     errors := Some errors |}.

Definition DefaultState : FormState :=
  {| state := "default";
     success := None;
     messgae := None;
     errors := None |}.

(** The objects the three exported constructors can return. *)
Inductive constructed : FormState → Prop :=
  | constructed_success msg : constructed (SuccessState msg)
  | constructed_fail errs : constructed (FailState errs)
  | constructed_default : constructed DefaultState.

(** The shape the union type [FormState] prescribes for each tag. *)
Definition consistent (s : FormState) : Prop :=
  (state s = "success" →
     success s = Some true ∧ is_Some (messgae s) ∧ errors s = None)
  ∧ (state s = "fail" →
     success s = Some false ∧ is_Some (errors s) ∧ messgae s = None)
  ∧ (state s = "default" →
     success s = None ∧ messgae s = None ∧ errors s = None)
  ∧ (state s = "success" ∨ state s = "fail" ∨ state s = "default").

End State.

(** ** src/server/errors/zod_errors.ts *)

Module ZodErrors.
Import Zod State.

(** [ToPropertyKey(err.path[0])]: a string is itself, a number is printed
    in decimal, and the missing first element of an empty path is the
    value [undefined], whose property key is the string ["undefined"]. *)
Definition property_key (first : option PathSegment) : string :=
  match first with
  | Some (Key s) => s
  | Some (Index n) => pretty n
  | None => "undefined"
  end.

Definition issue_key (err : ZodIssue) : string :=
  property_key (head (path err)).

(** [errors.errors.map((err) => (formError[err.path[0]] = err.message))]:
    the callback runs on the issues from left to right and assigns into
    the one object [formError]; the array [map] builds is dropped. *)
Definition ZodFormError (errors : ZodError) : FormErrors :=
  foldl (λ formError err, Js.assign (issue_key err) (message err) formError)
        ∅ (Zod.errors errors).

(** The reduction rule as the specification words it: an entry is
    inserted only if its path is not yet present. *)
Definition project_first_wins (errors : ZodError) : FormErrors :=
  foldl (λ formError err,
           match formError !! issue_key err with
           | Some _ => formError
           | None => <[issue_key err := message err]> formError
           end)
        ∅ (Zod.errors errors).

End ZodErrors.

(** ** src/lib/zod/index.ts *)

Module ZodIndex.
Import Zod.

(** The returned object [{ data, errors }]; [None] is [undefined].  The
    casts [as ReturnType] and [err as ZodError] do not change the value
    returned or caught. *)
Record ParseResult (ReturnType : Type) : Type := {
  data : option ReturnType;
  errors : option Thrown;
}.
Arguments data {ReturnType} _.
Arguments errors {ReturnType} _.

Definition parseFormData {ReturnType} (formData : FormData)
    (schema : option (Schema ReturnType))
    : Js.Completion (option Thrown) (ParseResult ReturnType) :=
  Js.try_catch
    (let form := Js.Object_fromEntries (entries formData) in
     data ← call_parse schema form;
     mret {| data := data; errors := None |})
    (λ err, mret {| data := None; errors := err |}).

(** Exactly one of the two components is populated. *)
Definition exactly_one_populated {ReturnType} (r : ParseResult ReturnType) : Prop :=
  (is_Some (data r) ∧ errors r = None) ∨ (data r = None ∧ is_Some (errors r)).

End ZodIndex.

(** ** A declarative schema: what validation reports *)

Module SpecSchema.
Import Zod.

(** Modelled from the spec: the validation library (zod) is a dependency
    whose code is not among the sources, so what [parse] does inside is
    taken from the specification's description of a ValidationSchema: the
    expected fields, each with constraint predicates and the failure
    message attached to each. *)
Record FieldConstraint : Type := {
  field : string;
  satisfied : option FormDataEntryValue → bool;
  failure_message : string;
}.

Definition violated (form : Form) (c : FieldConstraint) : bool :=
  negb (satisfied c (form !! field c)).

Definition issue_of (c : FieldConstraint) : ZodIssue :=
  {| path := [Key (field c)]; message := failure_message c |}.

(** Modelled from the spec: one pass over every constraint of the schema,
    one entry per violated constraint, in schema order. *)
Definition violations (cs : list FieldConstraint) (form : Form) : list ZodIssue :=
  issue_of <$> filter (λ c, violated form c) cs.

(** Modelled from the spec: the typed value has the declared fields and
    no others. *)
Definition declared_fields (cs : list FieldConstraint) (form : Form) : Form :=
  filter (λ kv, kv.1 ∈ field <$> cs) form.

(** Modelled from the spec: [parse] of the declarative schema returns the
    typed value when no constraint is violated and otherwise throws the
    accumulated failure. *)
Definition constraint_schema (cs : list FieldConstraint) : Schema Form :=
  {| parse form :=
       match violations cs form with
       | [] => Js.Normal (Some (declared_fields cs form))
       | issues => Js.Throw (Some (ThrownZodError {| errors := issues |}))
       end |}.

End SpecSchema.

(** ** src/server/actions/admin.ts, as the README gives it *)

Module AdminActions.
Import Js Zod State ZodErrors ZodIndex.



Section adminLogin.
Context {LoginFormData : Type}.

(** [LoginFormSchema], imported from [src/lib/zod/admin.ts]: an object
    schema built with zod, taken as a parameter. *)
Variable LoginFormSchema : Schema LoginFormData.



End adminLogin.


End AdminActions.

Import Js Zod State ZodErrors ZodIndex SpecSchema AdminActions.

(** ** Concrete values used in the examples *)

Definition username_twice : ZodError :=
  {| Zod.errors :=
       [ {| path := [Key "username"]; message := "Admin username is required." |};
         {| path := [Key "username"]; message := "Username is too short." |} ] |}.

Definition login_constraints : list FieldConstraint :=
  [ {| field := "username";
       satisfied v := match v with
                      | None | Some (Text EmptyString) => false
                      | Some _ => true
                      end;
       failure_message := "Admin username is required." |};
    {| field := "password";
       satisfied v := match v with
                      | None | Some (Text EmptyString) => false
                      | Some _ => true
                      end;
       failure_message := "Admin password is required." |} ].

Definition empty_login : FormData :=
  {| entries := [("username", Text ""); ("password", Text "")] |}.


(** A schema with a refinement whose callback throws [undefined]. *)
Definition throwing_undefined_schema : Schema string :=
  {| parse form := Throw None |}.

(** [Number.MAX_SAFE_INTEGER], 2^53 - 1. *)
Definition MAX_SAFE_INTEGER : N := 9007199254740991.

Definition login_then_retype : FormData :=
  {| entries := [("username", Text "adm"); ("password", Text "pw");
                 ("username", Text "admin")] |}.

(** An issue cut down to the first element of its path, and an issue with
    no path at all. *)
Definition first_segment_only (err : ZodIssue) : ZodIssue :=
  {| path := take 1 (path err); message := message err |}.

Definition pathless (msg : string) : ZodIssue :=
  {| path := []; message := msg |}.

(** * Supporting lemmas *)

(** ** Flattening by [Object.fromEntries] *)

Section fromEntries.
Context {V : Type}.
Implicit Types (es : list (string * V)) (e : string * V) (k : string).

Lemma Object_fromEntries_snoc es e :
  Object_fromEntries (es ++ [e]) = <[e.1 := e.2]> (Object_fromEntries es).
Proof. unfold Object_fromEntries. by rewrite foldl_app. Qed.

Lemma Object_fromEntries_lookup es k :
  Object_fromEntries es !! k = snd <$> last (filter (λ e, e.1 = k) es).
Proof.
  induction es as [|e es IH] using rev_ind; [done|].
  rewrite Object_fromEntries_snoc, filter_app.
  destruct (decide (e.1 = k)) as [<-|Hne].
  - rewrite lookup_insert_eq, filter_cons_True, filter_nil by done.
    by rewrite last_snoc.
  - rewrite lookup_insert_ne, filter_cons_False, filter_nil by done.
    by rewrite app_nil_r.
Qed.
End fromEntries.

(** ** The object built by [ZodFormError] *)

Lemma ZodFormError_snoc (issues : list ZodIssue) (err : ZodIssue) :
  ZodFormError {| Zod.errors := issues ++ [err] |}
  = assign (issue_key err) (message err) (ZodFormError {| Zod.errors := issues |}).
Proof. unfold ZodFormError; simpl. by rewrite foldl_app. Qed.

Lemma ZodFormError_lookup_proto (errs : ZodError) :
  ZodFormError errs !! "__proto__" = None.
Proof.
  destruct errs as [issues].
  induction issues as [|err issues IH] using rev_ind; [done|].
  rewrite ZodFormError_snoc. unfold assign.
  case_decide as Hk; [done|]. by rewrite lookup_insert_ne.
Qed.

Lemma ZodFormError_lookup (errs : ZodError) (k : string) :
  k ≠ "__proto__" →
  ZodFormError errs !! k
  = message <$> last (filter (λ err, issue_key err = k) (Zod.errors errs)).
Proof.
  intros Hk. destruct errs as [issues]; simpl.
  induction issues as [|err issues IH] using rev_ind; [done|].
  rewrite ZodFormError_snoc, filter_app. unfold assign.
  destruct (decide (issue_key err = k)) as [<-|Hne].
  - rewrite decide_False, lookup_insert_eq by done.
    rewrite filter_cons_True, filter_nil by done. by rewrite last_snoc.
  - rewrite filter_cons_False, filter_nil, app_nil_r by done.
    case_decide; [done|]. by rewrite lookup_insert_ne.
Qed.

Lemma issue_key_first_segment_only (err : ZodIssue) :
  issue_key (first_segment_only err) = issue_key err.
Proof. destruct err as [[|seg rest] msg]; reflexivity. Qed.

(** ** What [parseFormData] does with the outcome of [parse] *)

Lemma parseFormData_unfold {T} (formData : FormData) (schema : option (Schema T)) :
  parseFormData formData schema
  = match call_parse schema (Object_fromEntries (entries formData)) with
    | Normal d => Normal {| data := d; ZodIndex.errors := None |}
    | Throw err => Normal {| data := None; ZodIndex.errors := err |}
    end.
Proof.
  unfold parseFormData, try_catch; simpl.
  by destruct (call_parse schema _).
Qed.

(** ** Numerals *)

Lemma pretty_N_go_leading_digit (x d : N) (s : string) :
  ∃ d' s', pretty_N_go x (String (pretty_N_char d) s)
           = String (pretty_N_char d') s'.
Proof.
  revert d s. induction (N.lt_wf_0 x) as [x _ IH]; intros d s.
  assert (x = 0 ∨ 0 < x)%N as [->|Hpos] by lia.
  - rewrite pretty_N_go_0. eauto.
  - rewrite pretty_N_go_step by done. apply IH. by apply N.div_lt.
Qed.

Lemma pretty_N_leading_digit (n : N) :
  ∃ d s, pretty n = String (pretty_N_char d) s.
Proof.
  unfold pretty, pretty_N. case_decide as Hn.
  - by exists 0%N, "".
  - rewrite pretty_N_go_step by lia. apply pretty_N_go_leading_digit.
Qed.

Lemma pretty_N_ne_undefined (n : N) : pretty n ≠ "undefined".
Proof.
  destruct (pretty_N_leading_digit n) as (d & s & ->).
  intros [= Hc _]. unfold pretty_N_char in Hc.
  repeat case_match; discriminate.
Qed.

Lemma pretty_N_ne_proto (n : N) : pretty n ≠ "__proto__".
Proof.
  destruct (pretty_N_leading_digit n) as (d & s & ->).
  intros [= Hc _]. unfold pretty_N_char in Hc.
  repeat case_match; discriminate.
Qed.

(** * The specified behaviour, claim by claim *)

(** C1, as the code has it: the object returned by [ZodFormError] has one
    entry for each distinct key among the issues (the key being the first
    path element, and never ["__proto__"], which a plain assignment does
    not store), and the message under a key is the message of the LAST
    issue with that key: every later issue overwrites the earlier one. *)
Theorem ZodFormError_last_wins (errs : ZodError) :
  (∀ k, ZodFormError errs !! k
        = if decide (k = "__proto__") then None
          else message <$> last (filter (λ err, issue_key err = k) (Zod.errors errs)))
  ∧ dom (ZodFormError errs)
    = list_to_set (issue_key <$> Zod.errors errs) ∖ {["__proto__"]}.
Proof.
  assert (Hlookup : ∀ k, ZodFormError errs !! k
        = if decide (k = "__proto__") then None
          else message <$> last (filter (λ err, issue_key err = k) (Zod.errors errs))).
  { intros k. case_decide as Hk.
    - subst k. apply ZodFormError_lookup_proto.
    - by apply ZodFormError_lookup. }
  split; [exact Hlookup|].
  apply set_eq. intros k.
  rewrite elem_of_dom, Hlookup, elem_of_difference, elem_of_list_to_set,
    not_elem_of_singleton, list_elem_of_fmap.
  case_decide as Hk.
  - split; [by intros [? ?]|]. by intros [_ ?].
  - rewrite fmap_is_Some, last_is_Some. split.
    + intros Hne. split; [|done].
      destruct (filter _ _) as [|err l] eqn:Hf; [done|].
      assert (Hin : err ∈ filter (λ err, issue_key err = k) (Zod.errors errs))
        by (rewrite Hf; left).
      apply list_elem_of_filter in Hin as [Hkey Hin]. by exists err.
    + intros [(err & -> & Hin) _] Hnil.
      assert (Hin' : err ∈ filter (λ err', issue_key err' = issue_key err)
                              (Zod.errors errs))
        by (by apply list_elem_of_filter).
      rewrite Hnil in Hin'. by apply elem_of_nil in Hin'.
Qed.

(** C1, as stated, fails: with two issues on [username] the message kept
    is the second one, not the first, and the object differs from the one
    a first-wins reduction builds. *)
Lemma ZodFormError_not_first_wins :
  ZodFormError username_twice !! "username"
  ≠ message <$> head (filter (λ err, issue_key err = "username")
                             (Zod.errors username_twice))
  ∧ ZodFormError username_twice ≠ project_first_wins username_twice.
Proof.
  split.
  - vm_compute. discriminate.
  - intros Heq.
    assert (H : ZodFormError username_twice !! "username"
                = project_first_wins username_twice !! "username")
      by (by rewrite Heq).
    vm_compute in H. discriminate.
Qed.

(** C2: [SuccessState m] has tag [success] and carries exactly [m], for
    every string [m]. *)
Theorem SuccessState_wraps_verbatim (m : string) :
  state (SuccessState m) = "success" ∧ messgae (SuccessState m) = Some m.
Proof. split; reflexivity. Qed.

(** C3: [FailState e] has tag [fail] and carries exactly the mapping
    [e]. *)
Theorem FailState_wraps_verbatim (e : FormErrors) :
  state (FailState e) = "fail" ∧ State.errors (FailState e) = Some e.
Proof. split; reflexivity. Qed.

(** C4: in the object [parseFormData] hands to the schema a field name is
    bound to the value of its LAST occurrence in submission order, and the
    result of the call is what [parse] makes of that object. *)
Theorem parseFormData_last_key_wins {T} (formData : FormData) (schema : Schema T) :
  (∀ name, Object_fromEntries (entries formData) !! name
           = snd <$> last (filter (λ e, e.1 = name) (entries formData)))
  ∧ parseFormData formData (Some schema)
    = match parse schema (Object_fromEntries (entries formData)) with
      | Normal d => Normal {| data := d; ZodIndex.errors := None |}
      | Throw err => Normal {| data := None; ZodIndex.errors := err |}
      end.
Proof.
  split.
  - intros name. apply Object_fromEntries_lookup.
  - by rewrite parseFormData_unfold.
Qed.

(** C5, as stated, fails: when a callback of the schema throws the value
    [undefined], the [catch] clause returns [{ data: undefined, errors:
    err }] with [err] undefined, so both components are absent. *)
Lemma parseFormData_both_absent :
  parseFormData empty_login (Some throwing_undefined_schema)
  = Normal {| data := None; ZodIndex.errors := None |}
  ∧ ¬ (∃ r, parseFormData empty_login (Some throwing_undefined_schema) = Normal r
            ∧ exactly_one_populated r).
Proof.
  split; [reflexivity|].
  intros (r & [= <-] & [[[d Hd] _]|[_ [e He]]]); discriminate.
Qed.

(** C5, as the code has it: [parseFormData] always returns, and in the
    object it returns the two components are never both populated.
    [data] holds exactly what [parse] returned and [errors] exactly what
    was thrown, so exactly one of them is populated unless the value
    returned or thrown is [undefined], and then both are absent. *)
Theorem parseFormData_never_both {T} (formData : FormData)
    (schema : option (Schema T)) :
  ∃ r, parseFormData formData schema = Normal r
       ∧ ¬ (is_Some (data r) ∧ is_Some (ZodIndex.errors r))
       ∧ (∀ d, data r = Some d
               ↔ call_parse schema (Object_fromEntries (entries formData))
                 = Normal (Some d))
       ∧ (∀ e, ZodIndex.errors r = Some e
               ↔ call_parse schema (Object_fromEntries (entries formData))
                 = Throw (Some e))
       ∧ (exactly_one_populated r
          ↔ call_parse schema (Object_fromEntries (entries formData)) ≠ Normal None
            ∧ call_parse schema (Object_fromEntries (entries formData)) ≠ Throw None).
Proof.
  rewrite parseFormData_unfold.
  destruct (call_parse schema _) as [[d|]|[e|]];
    eexists; (split; [reflexivity|]);
    unfold exactly_one_populated, is_Some; simpl;
    firstorder (congruence || eauto).
Qed.

(** C6: a submitted form that violates [k] constraints of a declarative
    schema, [k] at least one, makes [parseFormData] return the error
    branch, and the failure it carries has [k] entries: one per violated
    constraint, in schema order, none dropped after the first. *)
Theorem parseFormData_accumulates (formData : FormData)
    (cs : list FieldConstraint) (k : nat) :
  length (filter (λ c, violated (Object_fromEntries (entries formData)) c) cs) = k →
  0 < k →
  ∃ failure,
    parseFormData formData (Some (constraint_schema cs))
    = Normal {| data := None; ZodIndex.errors := Some (ThrownZodError failure) |}
    ∧ length (Zod.errors failure) = k
    ∧ message <$> Zod.errors failure
      = failure_message
          <$> filter (λ c, violated (Object_fromEntries (entries formData)) c) cs.
Proof.
  intros Hlen Hpos.
  exists {| Zod.errors := violations cs (Object_fromEntries (entries formData)) |}.
  rewrite parseFormData_unfold; simpl. unfold violations.
  destruct (filter _ cs) as [|c bad] eqn:Hbad; simpl in *; [lia|].
  repeat split; [by rewrite length_fmap|].
  f_equal. rewrite <- list_fmap_compose. by apply list_fmap_ext.
Qed.

Lemma parseFormData_accumulates_witness :
  ∃ failure,
    parseFormData empty_login (Some (constraint_schema login_constraints))
    = Normal {| data := None; ZodIndex.errors := Some (ThrownZodError failure) |}
    ∧ length (Zod.errors failure) = 2
    ∧ message <$> Zod.errors failure
      = failure_message
          <$> filter (λ c, violated (Object_fromEntries (entries empty_login)) c)
                     login_constraints.
Proof.
  apply (parseFormData_accumulates empty_login login_constraints 2).
  - vm_compute. reflexivity.
  - lia.
Defined.

(** C7, as stated, fails: [FailState] applied to the empty mapping
    returns, without complaint, a state with tag [fail] whose errors are
    empty. *)
Lemma FailState_accepts_empty :
  FailState ∅
  = {| state := "fail"; success := Some false; messgae := None;
       State.errors := Some ∅ |}
  ∧ ¬ (∀ e : FormErrors,
         state (FailState e) = "fail" → State.errors (FailState e) ≠ Some ∅).
Proof.
  split; [reflexivity|].
  intros H. by apply (H ∅).
Qed.

(** C7, as the code has it: [FailState] checks nothing.  For every
    mapping [e] it returns a state with tag [fail] whose errors are [e],
    and the errors of that state are empty exactly when the mapping passed
    in is empty. *)
Theorem FailState_no_emptiness_check (e : FormErrors) :
  state (FailState e) = "fail"
  ∧ State.errors (FailState e) = Some e
  ∧ (State.errors (FailState e) = Some ∅ ↔ e = ∅).
Proof.
  split; [reflexivity|]. split; [reflexivity|].
  simpl. split; [by intros [= ->]|by intros ->].
Qed.

(** C8: without a schema the call of [parse] throws a [TypeError] for
    reading a property of [undefined]; [parseFormData] catches it and
    returns normally, with [data] undefined and the [TypeError] in
    [errors]. *)
Theorem parseFormData_schema_absent {T} (formData : FormData) :
  parseFormData (ReturnType := T) formData None
  = Normal
      {| data := None;
         ZodIndex.errors :=
           Some (ThrownTypeError
                   "Cannot read properties of undefined (reading 'parse')") |}.
Proof. reflexivity. Qed.

(** C9: every state built by [SuccessState], [FailState] or
    [DefaultState] has one of the three tags, and the flag and payload
    that go with its tag. *)
Theorem constructed_consistent (s : FormState) :
  constructed s → consistent s.
Proof.
  intros [msg|errs|]; unfold consistent; simpl;
    repeat split; try discriminate; eauto.
Qed.

Lemma constructed_consistent_witness :
  constructed (FailState {["username" := "Admin username is required."]})
  ∧ consistent (FailState {["username" := "Admin username is required."]}).
Proof.
  split; [constructor|].
  apply (constructed_consistent
           (FailState {["username" := "Admin username is required."]})).
  constructor.
Defined.

(** C10: [ZodFormError] looks at the first element of each path only, so
    cutting every path down to its first element changes nothing; the
    message of an issue with an empty path is stored under the key
    ["undefined"]; and any number of such issues leave one entry, under
    that key.  An issue whose path starts with the string [s] is stored
    under [s] itself (nothing is stored when [s] is ["__proto__"]), one
    whose path starts with an index under the numeral of the index, and
    one with no path under ["undefined"], each replacing what the key held
    before. *)
Theorem ZodFormError_keyed_by_first_segment :
  (∀ errs : ZodError,
     ZodFormError errs
     = ZodFormError {| Zod.errors := first_segment_only <$> Zod.errors errs |})
  ∧ (∀ (issues : list ZodIssue) (msg : string),
       ZodFormError {| Zod.errors := issues ++ [pathless msg] |} !! "undefined"
       = Some msg)
  ∧ (∀ msgs : list string,
       ZodFormError {| Zod.errors := pathless <$> msgs |}
       = match last msgs with
         | Some msg => {["undefined" := msg]}
         | None => ∅
         end)
  ∧ (∀ (issues : list ZodIssue) (s : string) (rest : list PathSegment)
       (msg : string),
       ZodFormError
         {| Zod.errors := issues ++ [ {| path := Key s :: rest; message := msg |} ] |}
       = if decide (s = "__proto__") then ZodFormError {| Zod.errors := issues |}
         else <[s := msg]> (ZodFormError {| Zod.errors := issues |}))
  ∧ (∀ (issues : list ZodIssue) (n : N) (rest : list PathSegment)
       (msg : string),
       (n ≤ MAX_SAFE_INTEGER)%N →
       ZodFormError
         {| Zod.errors := issues ++ [ {| path := Index n :: rest; message := msg |} ] |}
       = <[pretty n := msg]> (ZodFormError {| Zod.errors := issues |}))
  ∧ (∀ (issues : list ZodIssue) (msg : string),
       ZodFormError {| Zod.errors := issues ++ [pathless msg] |}
       = <["undefined" := msg]> (ZodFormError {| Zod.errors := issues |})).
Proof.
  split; [|split; [|split; [|split; [|split]]]]; cycle 3.
  { intros issues s rest msg. by rewrite ZodFormError_snoc. }
  { intros issues n rest msg _. rewrite ZodFormError_snoc.
    unfold assign, issue_key; simpl.
    by rewrite decide_False by apply pretty_N_ne_proto. }
  { intros issues msg. by rewrite ZodFormError_snoc. }
  - intros [issues]; simpl.
    induction issues as [|err issues IH] using rev_ind; [done|].
    rewrite fmap_app; simpl. rewrite !ZodFormError_snoc.
    by rewrite issue_key_first_segment_only, IH.
  - intros issues msg. rewrite ZodFormError_snoc. unfold assign; simpl.
    apply lookup_insert_eq.
  - intros msgs.
    induction msgs as [|msg msgs IH] using rev_ind; [done|].
    rewrite fmap_app; simpl. rewrite ZodFormError_snoc, IH, last_snoc.
    unfold assign; simpl.
    destruct (last msgs); [apply insert_singleton_eq|apply insert_empty].
Qed.

Lemma ZodFormError_keyed_by_first_segment_witness :
  (3 ≤ MAX_SAFE_INTEGER)%N
  ∧ ZodFormError
      {| Zod.errors :=
           [ {| path := [Key "pets"]; message := "p" |} ]
           ++ [ {| path := [Index 3; Key "name"]; message := "m" |} ] |}
    = <[pretty 3%N := "m"]>
        (ZodFormError
           {| Zod.errors := [ {| path := [Key "pets"]; message := "p" |} ] |}).
Proof.
  split; [by vm_compute|].
  destruct ZodFormError_keyed_by_first_segment as (_ & _ & _ & _ & Hindex & _).
  apply (Hindex [ {| path := [Key "pets"]; message := "p" |} ] 3%N
           [Key "name"] "m").
  by vm_compute.
Defined.

(** * Further properties of the code *)

(** ** [ZodFormError]: more on the object it builds *)

Lemma assign_union {V} (k : string) (v : V) (m1 m2 : gmap string V) :
  assign k v (m1 ∪ m2) = assign k v m1 ∪ m2.
Proof. unfold assign. case_decide; [done|]. apply insert_union_l. Qed.

Lemma assign_size {V} (k : string) (v : V) (m : gmap string V) :
  (size (assign k v m) ≤ S (size m))%nat.
Proof.
  unfold assign. case_decide; [lia|].
  rewrite map_size_insert. destruct (m !! k); simpl; lia.
Qed.

Lemma ZodFormError_dom (errs : ZodError) :
  dom (ZodFormError errs)
  = list_to_set (filter (λ k, k ≠ "__proto__") (issue_key <$> Zod.errors errs)).
Proof.
  destruct errs as [issues]; simpl.
  induction issues as [|err issues IH] using rev_ind; [done|].
  rewrite ZodFormError_snoc, fmap_app, filter_app, list_to_set_app_L, <- IH.
  unfold assign; simpl. case_decide as Hk.
  - rewrite filter_cons_False, filter_nil by (by intros ?). simpl.
    by rewrite (right_id_L ∅ (∪)).
  - rewrite filter_cons_True, filter_nil, dom_insert_L by done. simpl.
    rewrite (right_id_L ∅ (∪)). apply (comm_L (∪)).
Qed.

Lemma list_to_set_remove_dups_keys (l : list string) :
  list_to_set (remove_dups l) =@{gset string} list_to_set l.
Proof.
  apply set_eq. intros x. by rewrite !elem_of_list_to_set, elem_of_remove_dups.
Qed.

Lemma filter_key_at_most_one {A} (f : A → string) (k : string) (l : list A) :
  NoDup (f <$> l) → (length (filter (λ x, f x = k) l) ≤ 1)%nat.
Proof.
  induction l as [|a l IH]; [intros _; rewrite filter_nil; simpl; lia|].
  rewrite fmap_cons. intros [Hnotin Hnd]%NoDup_cons.
  destruct (decide (f a = k)) as [Heq|Hne].
  - rewrite filter_cons_True by done. simpl.
    assert (Hnil : filter (λ x, f x = k) l = []).
    { destruct (filter _ l) as [|b l'] eqn:Hf; [done|].
      assert (Hb : b ∈ filter (λ x, f x = k) l) by (rewrite Hf; left).
      apply list_elem_of_filter in Hb as [Hfb Hb].
      destruct Hnotin. rewrite Heq, <- Hfb. by apply list_elem_of_fmap_2. }
    rewrite Hnil. simpl. lia.
  - rewrite filter_cons_False by done. by apply IH.
Qed.

Lemma last_filter_permutation {A} (f : A → string) (k : string) (l l' : list A) :
  NoDup (f <$> l) → l ≡ₚ l' →
  last (filter (λ x, f x = k) l) = last (filter (λ x, f x = k) l').
Proof.
  intros Hnd Hperm.
  pose proof (filter_key_at_most_one f k l Hnd) as Hlen.
  assert (Hp : filter (λ x, f x = k) l ≡ₚ filter (λ x, f x = k) l')
    by (by rewrite Hperm).
  destruct (filter (λ x, f x = k) l) as [|x [|y rest]]; simpl in Hlen; [| |lia].
  - apply Permutation_nil_l in Hp. by rewrite Hp.
  - apply Permutation_singleton_l in Hp. by rewrite Hp.
Qed.

(** X1: [ZodFormError] invents nothing: a message found under a key of
    the result is the message of an issue of the input that has this
    key. *)
Theorem ZodFormError_entry_from_issue (errs : ZodError) (k m : string) :
  ZodFormError errs !! k = Some m →
  ∃ err, err ∈ Zod.errors errs ∧ issue_key err = k ∧ message err = m.
Proof.
  intros Hlook.
  destruct (decide (k = "__proto__")) as [->|Hk].
  { by rewrite ZodFormError_lookup_proto in Hlook. }
  rewrite ZodFormError_lookup in Hlook by done.
  apply fmap_Some in Hlook as (err & Hlast & ->).
  apply last_Some_elem_of, list_elem_of_filter in Hlast as [Hkey Hin].
  by exists err.
Qed.

Lemma ZodFormError_entry_from_issue_witness :
  ZodFormError username_twice !! "username" = Some "Username is too short."
  ∧ ∃ err, err ∈ Zod.errors username_twice
           ∧ issue_key err = "username"
           ∧ message err = "Username is too short.".
Proof.
  split; [vm_compute; reflexivity|].
  apply (ZodFormError_entry_from_issue username_twice "username"
           "Username is too short.").
  vm_compute. reflexivity.
Defined.

(** X2: the result has as many entries as the issues have distinct keys
    other than ["__proto__"]; it never has more entries than there are
    issues. *)
Theorem ZodFormError_size (errs : ZodError) :
  size (ZodFormError errs)
  = length (remove_dups (filter (λ k, k ≠ "__proto__")
                                (issue_key <$> Zod.errors errs)))
  ∧ (size (ZodFormError errs) ≤ length (Zod.errors errs))%nat.
Proof.
  split.
  - rewrite <- size_dom, ZodFormError_dom, <- list_to_set_remove_dups_keys.
    apply size_list_to_set, NoDup_remove_dups.
  - destruct errs as [issues]; simpl.
    induction issues as [|err issues IH] using rev_ind; [done|].
    rewrite ZodFormError_snoc, length_app; simpl.
    pose proof (assign_size (issue_key err) (message err)
                  (ZodFormError {| Zod.errors := issues |})). lia.
Qed.

(** X3: the result is the empty object exactly when every issue has the
    key ["__proto__"]; in particular when there is no issue at all. *)
Theorem ZodFormError_empty_iff (errs : ZodError) :
  ZodFormError errs = ∅
  ↔ Forall (λ err, issue_key err = "__proto__") (Zod.errors errs).
Proof.
  rewrite <- dom_empty_iff_L, ZodFormError_dom, Forall_forall. split.
  - intros Hdom err Hin.
    destruct (decide (issue_key err = "__proto__")) as [|Hne]; [done|].
    assert (Hk : issue_key err
                 ∈@{gset string} list_to_set (filter (λ k, k ≠ "__proto__")
                                       (issue_key <$> Zod.errors errs))).
    { apply elem_of_list_to_set, list_elem_of_filter.
      split; [done|]. by apply list_elem_of_fmap_2. }
    rewrite Hdom in Hk. by apply elem_of_empty in Hk.
  - intros Hall. apply set_eq. intros k.
    rewrite elem_of_list_to_set, list_elem_of_filter, list_elem_of_fmap.
    split; [|by intros ?%elem_of_empty].
    intros [Hk (err & -> & Hin)]. destruct Hk. by apply Hall.
Qed.

(** X4: running [ZodFormError] on two issue lists put end to end gives
    the entries of the second list, completed by those entries of the
    first whose keys the second does not have. *)
Theorem ZodFormError_app (issues1 issues2 : list ZodIssue) :
  ZodFormError {| Zod.errors := issues1 ++ issues2 |}
  = ZodFormError {| Zod.errors := issues2 |}
    ∪ ZodFormError {| Zod.errors := issues1 |}.
Proof.
  induction issues2 as [|err issues2 IH] using rev_ind.
  - rewrite app_nil_r. unfold ZodFormError at 2; simpl.
    by rewrite (left_id_L ∅ (∪)).
  - rewrite app_assoc, !ZodFormError_snoc, IH. apply assign_union.
Qed.

(** X5: when no two issues have the same key, the order of the issues
    does not matter. *)
Theorem ZodFormError_order_irrelevant (issues issues' : list ZodIssue) :
  NoDup (issue_key <$> issues) →
  issues ≡ₚ issues' →
  ZodFormError {| Zod.errors := issues |} = ZodFormError {| Zod.errors := issues' |}.
Proof.
  intros Hnd Hperm. apply map_eq. intros k.
  destruct (decide (k = "__proto__")) as [->|Hk].
  - by rewrite !ZodFormError_lookup_proto.
  - rewrite !ZodFormError_lookup by done; simpl.
    by rewrite (last_filter_permutation issue_key k issues issues').
Qed.

Lemma ZodFormError_order_irrelevant_witness :
  ZodFormError
    {| Zod.errors := [ {| path := [Key "username"]; message := "u" |};
                       {| path := [Key "password"]; message := "p" |} ] |}
  = ZodFormError
      {| Zod.errors := [ {| path := [Key "password"]; message := "p" |};
                         {| path := [Key "username"]; message := "u" |} ] |}.
Proof.
  apply (ZodFormError_order_irrelevant
           [ {| path := [Key "username"]; message := "u" |};
             {| path := [Key "password"]; message := "p" |} ]
           [ {| path := [Key "password"]; message := "p" |};
             {| path := [Key "username"]; message := "u" |} ]).
  - apply (bool_decide_unpack _). vm_compute. exact I.
  - apply perm_swap.
Defined.

(** ** Keys made from array indices *)

(** X6: an issue whose path starts with an array index (a safe integer)
    is filed under the decimal numeral of the index.  Two such indices
    share a numeral only if they are equal, and a numeral is neither
    ["undefined"] nor ["__proto__"]: such an issue is not merged with the
    issues that have no path, and it is not dropped. *)
Theorem ZodFormError_index_key (issues : list ZodIssue) (n : N)
    (rest : list PathSegment) (msg : string) :
  (n ≤ MAX_SAFE_INTEGER)%N →
  ZodFormError
    {| Zod.errors := issues ++ [ {| path := Index n :: rest; message := msg |} ] |}
    !! pretty n = Some msg
  ∧ (∀ m : N, (m ≤ MAX_SAFE_INTEGER)%N →
              property_key (Some (Index n)) = property_key (Some (Index m))
              ↔ n = m)
  ∧ property_key (Some (Index n)) ≠ "undefined"
  ∧ property_key (Some (Index n)) ≠ "__proto__".
Proof.
  intros _.
  pose proof (pretty_N_ne_undefined n) as Hu.
  pose proof (pretty_N_ne_proto n) as Hp.
  repeat split; try done.
  - rewrite ZodFormError_snoc. unfold assign, issue_key; simpl.
    rewrite decide_False by done. apply lookup_insert_eq.
  - simpl. apply (inj pretty).
  - by intros ->.
Qed.

Lemma ZodFormError_index_key_witness :
  ZodFormError
    {| Zod.errors := [] ++ [ {| path := [Index 12; Key "name"]; message := "m" |} ] |}
    !! pretty 12%N = Some "m"
  ∧ (∀ m : N, (m ≤ MAX_SAFE_INTEGER)%N →
              property_key (Some (Index 12)) = property_key (Some (Index m))
              ↔ 12%N = m)
  ∧ property_key (Some (Index 12)) ≠ "undefined"
  ∧ property_key (Some (Index 12)) ≠ "__proto__".
Proof.
  apply (ZodFormError_index_key [] 12%N [Key "name"] "m").
  by vm_compute.
Defined.

(** ** More on the flattening done by [parseFormData] *)

(** X8: when every field name is submitted once, the object built from
    the entries has the same properties with the same values whatever the
    order of the entries (the order in which the object lists its keys is
    not part of this). *)
Theorem Object_fromEntries_permutation {V} (es es' : list (string * V)) :
  NoDup es.*1 → es ≡ₚ es' → Object_fromEntries es = Object_fromEntries es'.
Proof.
  intros Hnd Hperm. apply map_eq. intros name.
  rewrite !Object_fromEntries_lookup.
  by rewrite (last_filter_permutation fst name es es').
Qed.

Lemma Object_fromEntries_permutation_witness :
  Object_fromEntries [("username", Text "admin"); ("password", Text "pw")]
  = Object_fromEntries [("password", Text "pw"); ("username", Text "admin")].
Proof.
  apply (Object_fromEntries_permutation
           [("username", Text "admin"); ("password", Text "pw")]
           [("password", Text "pw"); ("username", Text "admin")]).
  - apply (bool_decide_unpack _). vm_compute. exact I.
  - apply perm_swap.
Defined.

(** X9: an entry whose name is submitted again later leaves no trace in
    the properties and values of the object built from the entries (the
    order in which the object lists its keys is not part of this). *)
Theorem Object_fromEntries_shadowed {V} (pre post : list (string * V))
    (k : string) (v : V) :
  k ∈ post.*1 →
  Object_fromEntries (pre ++ (k, v) :: post) = Object_fromEntries (pre ++ post).
Proof.
  intros Hin. apply map_eq. intros name.
  rewrite !Object_fromEntries_lookup, !filter_app.
  destruct (decide (k = name)) as [->|Hne].
  - rewrite filter_cons_True by done.
    apply list_elem_of_fmap in Hin as ([k' v'] & Hk & Hin); simpl in Hk; subst k'.
    assert (Hlast : is_Some (last (filter (λ e : string * V, e.1 = name) post))).
    { apply last_is_Some. intros Hnil.
      assert (Hv : (name, v') ∈ filter (λ e : string * V, e.1 = name) post)
        by (by apply list_elem_of_filter).
      rewrite Hnil in Hv. by apply elem_of_nil in Hv. }
    destruct Hlast as [e He].
    by rewrite !last_app, last_cons, He.
  - by rewrite filter_cons_False.
Qed.

Lemma Object_fromEntries_shadowed_witness :
  Object_fromEntries (entries login_then_retype)
  = Object_fromEntries [("password", Text "pw"); ("username", Text "admin")].
Proof.
  apply (Object_fromEntries_shadowed []
           [("password", Text "pw"); ("username", Text "admin")]
           "username" (Text "adm")).
  apply (bool_decide_unpack _). vm_compute. exact I.
Defined.

(** X7: the object [parseFormData] builds from the entries has exactly the
    submitted names as keys, whatever the name, and is the map read off
    the entries from the last to the first. *)
Theorem Object_fromEntries_keys {V} (es : list (string * V)) :
  dom (Object_fromEntries es) = list_to_set es.*1
  ∧ Object_fromEntries es = list_to_map (reverse es).
Proof.
  assert (Hmap : Object_fromEntries es = list_to_map (reverse es)).
  { induction es as [|[k v] es IH] using rev_ind; [done|].
    by rewrite Object_fromEntries_snoc, reverse_snoc, list_to_map_cons, IH. }
  split; [|done].
  rewrite Hmap, dom_list_to_map_L, fmap_reverse.
  apply set_eq. intros k. by rewrite !elem_of_list_to_set, elem_of_reverse.
Qed.

(** ** Reading a [FormState] back *)

(** X10: on a state built by one of the three constructors, the tag tells
    which constructor built it and the payload stored in the state
    rebuilds it; the [success] flag alone tells the tag as well. *)
Theorem constructed_read_back (s : FormState) :
  constructed s →
  (state s = "success" → ∃ msg, messgae s = Some msg ∧ s = SuccessState msg)
  ∧ (state s = "fail" → ∃ errs, State.errors s = Some errs ∧ s = FailState errs)
  ∧ (state s = "default" → s = DefaultState)
  ∧ (success s = Some true ↔ state s = "success")
  ∧ (success s = Some false ↔ state s = "fail")
  ∧ (success s = None ↔ state s = "default").
Proof.
  intros [msg|errs|]; simpl; repeat split; try discriminate; eauto.
Qed.

Lemma constructed_read_back_witness :
  (state (SuccessState "Login: Success") = "success" →
     ∃ msg, messgae (SuccessState "Login: Success") = Some msg
            ∧ SuccessState "Login: Success" = SuccessState msg)
  ∧ (success (SuccessState "Login: Success") = Some true
     ↔ state (SuccessState "Login: Success") = "success").
Proof.
  pose proof (constructed_read_back (SuccessState "Login: Success")
                (constructed_success "Login: Success")) as (H1 & _ & _ & H4 & _).
  exact (conj H1 H4).
Defined.

(** ** The handler [adminLogin] *)



(** ** Issues with pairwise distinct keys *)

(** X12: when no two issues have the same key, no message is lost: the
    message of every issue is found under the key of the issue, unless
    that key is ["__proto__"]. *)
Theorem ZodFormError_keeps_every_message (issues : list ZodIssue)
    (err : ZodIssue) :
  NoDup (issue_key <$> issues) →
  err ∈ issues →
  issue_key err ≠ "__proto__" →
  ZodFormError {| Zod.errors := issues |} !! issue_key err = Some (message err).
Proof.
  intros Hnd Hin Hk. rewrite ZodFormError_lookup by done; simpl.
  pose proof (filter_key_at_most_one issue_key (issue_key err) issues Hnd) as Hlen.
  assert (Herr : err ∈ filter (λ err', issue_key err' = issue_key err) issues)
    by (by apply list_elem_of_filter).
  destruct (filter _ issues) as [|e1 [|e2 rest]]; simpl in Hlen; [| |lia].
  - by apply elem_of_nil in Herr.
  - apply list_elem_of_singleton in Herr as ->. done.
Qed.

Lemma ZodFormError_keeps_every_message_witness :
  ZodFormError
    {| Zod.errors := [ {| path := [Key "username"]; message := "u" |};
                       {| path := [Key "password"]; message := "p" |} ] |}
    !! issue_key {| path := [Key "username"]; message := "u" |}
  = Some (message {| path := [Key "username"]; message := "u" |}).
Proof.
  apply (ZodFormError_keeps_every_message
           [ {| path := [Key "username"]; message := "u" |};
             {| path := [Key "password"]; message := "p" |} ]
           {| path := [Key "username"]; message := "u" |}).
  - apply (bool_decide_unpack _). vm_compute. exact I.
  - left.
  - vm_compute. discriminate.
Defined.
